(** * create_chunks.py: the transcript batch builder

    A shallow embedding of [create_chunks.py] and the properties of its
    loop: filename parsing, construction of the chunk records, the files
    it leaves on disk and what happens when an item raises.

    Python values are embedded as follows.
    - [str] is [string]; a character stands for the code point of the
      same number (0..255).
    - [float] is [spec_float] (IEEE 754 values as sign, mantissa and
      exponent).  The script never computes with a float, it only copies
      it from a segment into a chunk and prints it into the JSON text.
    - a [list] is a [list], a [dict] with fixed keys is a record.
    - an exception is a value of [exn]; a statement that can raise
      returns [exn + _], and the body of the loop threads the state of
      the world ([World]: the files on disk and the standard output)
      through an exception monad that keeps the state reached when the
      exception was raised.
    - the loaded whisper model, [os.listdir], [open] and the write to
      the opened file are the fields of [Env]. *)

From Stdlib Require Import ZArith Ascii String List SpecFloat.
From stdpp Require Import gmap strings list fin_maps.
Import ListNotations.

Local Open Scope string_scope.
Local Open Scope list_scope.

(** ** Python built-ins used by the script *)

Module Py.

(** Exceptions, tagged by the statement that raises them. *)
Inductive exn : Type :=
| IndexError                 (* list index out of range *)
| ListdirError               (* OSError raised by os.listdir *)
| ModelError (msg : string)  (* whatever model.transcribe raised *)
| OpenError                  (* OSError raised by open(path, "w") *)
| WriteError.                (* OSError raised while writing to the opened file *)

(** [s.split(sep)] for a separator of one character: every occurrence
    of [sep] ends a token, empty tokens are kept, and the result is never
    empty ([''.split('_') == ['']]). *)
Fixpoint str_split (sep : ascii) (s : string) : list string :=
  match s with
  | EmptyString => [EmptyString]
  | String c s' =>
      if Ascii.eqb c sep then EmptyString :: str_split sep s'
      else match str_split sep s' with
           | [] => [String c EmptyString]
           | tok :: toks => String c tok :: toks
           end
  end.

(** [l[i]] for [0 <= i]: raises IndexError when out of range. *)
Definition getitem {A} (l : list A) (i : nat) : exn + A :=
  match l !! i with
  | Some x => inr x
  | None => inl IndexError
  end.

(** [s[:stop]]: a negative [stop] counts from the end of the string, and
    the bound is clipped to [0 .. len(s)]; a slice never raises. *)
Definition slice_to (stop : Z) (s : string) : string :=
  let len := Z.of_nat (String.length s) in
  let stop' := if (stop <? 0)%Z then Z.max 0 (stop + len) else Z.min stop len in
  substring 0 (Z.to_nat stop') s.

(** Number of occurrences of a character. *)
Fixpoint str_count (c : ascii) (s : string) : nat :=
  match s with
  | EmptyString => 0
  | String c' s' => (if Ascii.eqb c' c then 1 else 0) + str_count c s'
  end.

End Py.
Import Py.

(** ** Filename parsing (lines 10 and 11) *)

(** [number = audio.split("_")[0]] *)
Definition number (audio : string) : exn + string :=
  getitem (str_split "_" audio) 0.

(** [title = audio.split("_")[1][:-4]] *)
Definition title (audio : string) : exn + string :=
  match getitem (str_split "_" audio) 1 with
  | inl e => inl e
  | inr tok => inr (slice_to (-4) tok)
  end.

(** ** Data model *)

(** One element of [result["segments"]]. *)
Record Segment : Type := mkSegment {
  seg_start : spec_float;
  seg_end : spec_float;
  seg_text : string
}.

(** What [model.transcribe] returns: the keys ["segments"] and ["text"]. *)
Record TranscriptionResult : Type := mkResult {
  segments : list Segment;
  text : string
}.

(** The dict appended to [chunks], keys in insertion order. *)
Record ChunkRecord : Type := mkChunk {
  chunk_number : string;
  chunk_title : string;
  chunk_start : spec_float;
  chunk_end : spec_float;
  chunk_text : string
}.

(** The dict [chunks_with_metadata]. *)
Record OutputDocument : Type := mkDocument {
  doc_chunks : list ChunkRecord;
  doc_text : string
}.

(** ** Output construction (lines 19 to 23) *)

(** The dict built for one segment. *)
Definition chunk_of (number title : string) (segment : Segment) : ChunkRecord :=
  {| chunk_number := number; chunk_title := title;
     chunk_start := seg_start segment; chunk_end := seg_end segment;
     chunk_text := seg_text segment |}.

(** The inner loop: [chunks] starts empty and gets one record appended
    per segment. *)
Definition chunks (number title : string) (result : TranscriptionResult)
  : list ChunkRecord :=
  fold_left (fun chunks segment => chunks ++ [chunk_of number title segment])
    (segments result) [].

Definition chunks_with_metadata (number title : string)
    (result : TranscriptionResult) : OutputDocument :=
  {| doc_chunks := chunks number title result; doc_text := text result |}.

(** The document of a file: the pure part of one iteration, from the
    filename and the result of the model. *)
Definition document (audio : string) (result : TranscriptionResult)
  : exn + OutputDocument :=
  match number audio with
  | inl e => inl e
  | inr number =>
      match title audio with
      | inl e => inl e
      | inr title => inr (chunks_with_metadata number title result)
      end
  end.

(** ** json.dump with its default arguments *)

Module Json.

Definition dquote : ascii := ascii_of_nat 34.
Definition backslash : ascii := ascii_of_nat 92.

Definition hex_digit (n : nat) : ascii :=
  ascii_of_nat (if (n <? 10)%nat then (48 + n)%nat else (87 + n)%nat).

Definition chr (c : ascii) : string := String c EmptyString.

(** [ensure_ascii=True]: the quote and the backslash are escaped, the
    control characters with a short escape use it, and every other
    character outside [' ' .. '~'] is written as a lower-case \uXXXX. *)
Definition escape_char (c : ascii) : string :=
  let n := nat_of_ascii c in
  if (n =? 34)%nat then String backslash (chr dquote)
  else if (n =? 92)%nat then String backslash (chr backslash)
  else if (n =? 8)%nat then String backslash "b"
  else if (n =? 12)%nat then String backslash "f"
  else if (n =? 10)%nat then String backslash "n"
  else if (n =? 13)%nat then String backslash "r"
  else if (n =? 9)%nat then String backslash "t"
  else if ((n <? 32) || (126 <? n))%nat then
    String backslash
      ("u00" +:+ String (hex_digit (n / 16)%nat) (chr (hex_digit (n mod 16)%nat)))
  else chr c.

Fixpoint escape (s : string) : string :=
  match s with
  | EmptyString => EmptyString
  | String c s' => escape_char c +:+ escape s'
  end.

Definition str (s : string) : string :=
  String dquote (escape s +:+ chr dquote).

(** Items joined by the default item separator [", "]. *)
Fixpoint join (items : list string) : string :=
  match items with
  | [] => EmptyString
  | [x] => x
  | x :: rest => x +:+ ", " +:+ join rest
  end.

(** A key and its value, with the default key separator [": "]. *)
Definition member (key value : string) : string := str key +:+ ": " +:+ value.

Section Dumps.

(** [float.__repr__], with json's NaN, Infinity and -Infinity. *)
Variable float_repr : spec_float -> string.

Definition chunk (c : ChunkRecord) : string :=
  "{" +:+ join [ member "number" (str (chunk_number c));
                member "title" (str (chunk_title c));
                member "start" (float_repr (chunk_start c));
                member "end" (float_repr (chunk_end c));
                member "text" (str (chunk_text c)) ] +:+ "}".

Definition dumps (d : OutputDocument) : string :=
  "{" +:+ join [ member "chunks" ("[" +:+ join (map chunk (doc_chunks d)) +:+ "]");
                member "text" (str (doc_text d)) ] +:+ "}".

End Dumps.

End Json.

(** ** The world outside the script *)

(** The loaded model and the operating system, as the script sees them.
    The answers depend on the path only: within one run the script asks
    each question once per file. *)
Record Env : Type := mkEnv {
  (** [os.listdir(path)]: the names in the directory, [None] when the
      call raises *)
  listdir : string -> option (list string);
  (** [model.transcribe(audio=path, language=.., task=.., word_timestamps=..)]:
      the result, or the message of the exception it raises *)
  transcribe : string -> string -> string -> bool -> string + TranscriptionResult;
  (** does [open(path, "w")] succeed *)
  open_w : string -> bool;
  (** [None]: the text written to [path] reaches the disk; [Some n]: the
      write raises when the first [n] characters have reached it *)
  dump_fault : string -> option nat;
  (** [float.__repr__] as json.dump prints a float *)
  float_repr : spec_float -> string
}.

(** The files on disk (path to content) and the lines printed so far. *)
Record World : Type := mkWorld {
  fs : gmap string string;
  stdout : list string
}.

(** ** Statements: state and exceptions *)

Definition M (A : Type) : Type := World -> (exn + A) * World.

Definition ret {A} (x : A) : M A := fun w => (inr x, w).

Definition bind {A B} (c : M A) (k : A -> M B) : M B :=
  fun w =>
    match c w with
    | (inl e, w') => (inl e, w')
    | (inr x, w') => k x w'
    end.

Notation "'let*' x ':=' c 'in' k" := (bind c (fun x => k))
  (at level 10, x name, c at level 100, k at level 200).

(** An expression that may raise. *)
Definition eval {A} (r : exn + A) : M A := fun w => (r, w).

(** The exceptions of the two calls into the environment. *)
Definition os_listdir (env : Env) (path : string) : exn + list string :=
  match listdir env path with
  | Some names => inr names
  | None => inl ListdirError
  end.

Definition model_transcribe (env : Env) (path language task : string)
    (word_timestamps : bool) : exn + TranscriptionResult :=
  match transcribe env path language task word_timestamps with
  | inr result => inr result
  | inl msg => inl (ModelError msg)
  end.

(** [print(a, b)] *)
Definition print (a b : string) : M unit :=
  fun w => (inr tt, {| fs := fs w; stdout := stdout w ++ [a +:+ " " +:+ b] |}).

(** [with open(path, "w") as f: json.dump(d, f)]: [open] creates the
    file or empties it before anything is written. *)
Definition dump_to (env : Env) (path : string) (d : OutputDocument) : M unit :=
  fun w =>
    if open_w env path then
      let s := Json.dumps (float_repr env) d in
      match dump_fault env path with
      | None =>
          (inr tt, {| fs := <[path := s]> (fs w); stdout := stdout w |})
      | Some n =>
          (inl WriteError,
           {| fs := <[path := substring 0 n s]> (fs w); stdout := stdout w |})
      end
    else (inl OpenError, w).

(** [for x in l: body], left to right; an exception leaves the loop. *)
Fixpoint for_each {A} (body : A -> M unit) (l : list A) : M unit :=
  match l with
  | [] => ret tt
  | x :: l' => let* _ := body x in for_each body l'
  end.

(** ** The script *)

Definition in_path (audio : string) : string := "tedx_audios/" +:+ audio.
Definition out_path (audio : string) : string := "jsons/" +:+ audio +:+ ".json".

(** The body of the loop, lines 10 to 26. *)
Definition process_audio (env : Env) (audio : string) : M unit :=
  let* number := eval (number audio) in
  let* title := eval (title audio) in
  let* _ := print number title in
  let* result := eval (model_transcribe env (in_path audio) "hi" "translate" false) in
  dump_to env (out_path audio) (chunks_with_metadata number title result).

(** Lines 9 to 26: the loop over the listing. *)
Definition batch (env : Env) (audios : list string) : M unit :=
  for_each (process_audio env) audios.

(** Lines 7 to 26. *)
Definition main (env : Env) : M unit :=
  let* audios := eval (os_listdir env "tedx_audios") in
  batch env audios.

(** ** Vocabulary of the statements *)

(** A second run of the script, with the model answering by [model]. *)
Definition with_model (env : Env)
    (model : string -> string -> string -> bool -> string + TranscriptionResult)
  : Env :=
  {| listdir := listdir env; transcribe := model; open_w := open_w env;
     dump_fault := dump_fault env; float_repr := float_repr env |}.

Definition no_files : World := {| fs := ∅; stdout := [] |}.

(** A statement is local when its outcome, the files it writes and the
    lines it prints are the same from every world: run from [w], it
    leaves its own files over those of [w] and appends its own lines. *)
Definition local {A} (c : M A) : Prop :=
  ∀ w, c w = ((c no_files).1,
              {| fs := fs (c no_files).2 ∪ fs w;
                 stdout := stdout w ++ stdout (c no_files).2 |}).

(** [l] is the line the script prints for the file [audio]. *)
Definition printed_line (audio l : string) : Prop :=
  ∃ n t, number audio = inr n ∧ title audio = inr t ∧ l = n +:+ " " +:+ t.



(** ** A concrete run, used to exercise the statements below *)

Module Sample.

(** 0.0 and 2.5 as binary64 values. *)
Definition f0_0 : spec_float := S754_zero false.
Definition f2_5 : spec_float := S754_finite false 5629499534213120 (-51).

Definition hello : TranscriptionResult :=
  {| segments := [ {| seg_start := f0_0; seg_end := f2_5; seg_text := "hello" |} ];
     text := "hello" |}.

Definition talk : string := "07_my-talk.mp3".

(** Prints the two floats of [hello]; other values do not occur. *)
Definition repr (x : spec_float) : string :=
  match x with
  | S754_zero false => "0.0"
  | S754_finite false 5629499534213120 (-51) => "2.5"
  | _ => "NaN"
  end.

(** A directory with the files [names], a model that answers [hello]
    for each of them, and a disk that takes every write. *)
Definition env (names : list string) : Env :=
  {| listdir := fun dir => if String.eqb dir "tedx_audios" then Some names else None;
     transcribe := fun path _ _ _ =>
       if existsb (fun a => String.eqb path (in_path a)) names then inr hello
       else inl "no such file";
     open_w := fun _ => true;
     dump_fault := fun _ => None;
     float_repr := repr |}.

(** The same, on a disk that fails as soon as the output file of
    [audio] has been opened. *)
Definition env_disk_full (names : list string) (audio : string) : Env :=
  {| listdir := listdir (env names);
     transcribe := transcribe (env names);
     open_w := fun _ => true;
     dump_fault := fun path => if String.eqb path (out_path audio) then Some 0 else None;
     float_repr := repr |}.

End Sample.

(** ** Strings: splitting and slicing *)

Section Strings.

Implicit Types (c : ascii) (s a b : string).

Local Arguments String.append _ _ : simpl nomatch.

Lemma str_split_not_nil c s : str_split c s ≠ [].
Proof.
  destruct s as [|c' s]; simpl; [done|].
  destruct (Ascii.eqb c' c); [done|].
  by destruct (str_split c s).
Qed.

(** One token more than there are separators. *)
Lemma str_split_length c s : length (str_split c s) = S (str_count c s).
Proof.
  induction s as [|c' s IH]; simpl; [done|].
  destruct (Ascii.eqb c' c); simpl; [by rewrite IH|].
  destruct (str_split c s) as [|tok toks] eqn:E; simpl in *; [done|lia].
Qed.

Lemma str_split_no_sep c s : str_count c s = 0 → str_split c s = [s].
Proof.
  induction s as [|c' s IH]; simpl; [done|].
  destruct (Ascii.eqb c' c); simpl; [done|].
  intros H. by rewrite IH.
Qed.

(** The first token is what precedes the first separator. *)
Lemma str_split_first c a b :
  str_count c a = 0 → str_split c (a +:+ String c b) = a :: str_split c b.
Proof.
  induction a as [|c' a IH]; simpl.
  - intros _. by rewrite Ascii.eqb_refl.
  - destruct (Ascii.eqb c' c); simpl; [done|].
    intros H. by rewrite IH.
Qed.

Lemma str_count_app c a b : str_count c (a +:+ b) = str_count c a + str_count c b.
Proof. induction a as [|c' a IH]; simpl; [done|]. rewrite IH. lia. Qed.

Lemma string_length_app a b :
  String.length (a +:+ b) = String.length a + String.length b.
Proof. induction a as [|c' a IH]; simpl; [done|]. by rewrite IH. Qed.

Lemma string_app_assoc a b s : (a +:+ b) +:+ s = a +:+ b +:+ s.
Proof. induction a as [|c' a IH]; simpl; [done|]. by rewrite IH. Qed.

Lemma string_app_inj_l a s s' : a +:+ s = a +:+ s' → s = s'.
Proof. induction a as [|c' a IH]; simpl; [done|]. intros [= H]. by apply IH. Qed.

Lemma string_app_inj_r a s s' : s +:+ a = s' +:+ a → s = s'.
Proof.
  intros H.
  assert (Hlen : String.length s = String.length s').
  { apply (f_equal String.length) in H. rewrite !string_length_app in H. lia. }
  revert s' H Hlen. induction s as [|c' s IH]; intros [|c'' s']; simpl; try done.
  intros [= -> H] [= Hlen]. f_equal. by apply IH.
Qed.

Lemma substring_0_0 s : substring 0 0 s = EmptyString.
Proof. by destruct s. Qed.

Lemma substring_prefix a b : substring 0 (String.length a) (a +:+ b) = a.
Proof.
  induction a as [|c' a IH]; simpl; [apply substring_0_0|]. by rewrite IH.
Qed.

Lemma substring_skip a b n m :
  substring (String.length a + n) m (a +:+ b) = substring n m b.
Proof. induction a as [|c' a IH]; simpl; done. Qed.

(** [s[:-n]] keeps the first [len(s) - n] characters, none when [s] is
    not longer than [n]. *)
Lemma slice_to_neg (n : nat) s :
  (0 < n)%nat → slice_to (- Z.of_nat n) s = substring 0 (String.length s - n) s.
Proof.
  intros Hn. unfold slice_to.
  destruct (Z.ltb_spec (- Z.of_nat n) 0) as [_|?]; [|lia].
  f_equal. lia.
Qed.

Lemma slice_to_short (n : nat) s :
  (0 < n)%nat → (String.length s ≤ n)%nat → slice_to (- Z.of_nat n) s = EmptyString.
Proof.
  intros Hn Hs. rewrite slice_to_neg by done.
  replace (String.length s - n) with 0 by lia. apply substring_0_0.
Qed.

Lemma slice_to_suffix (n : nat) a b :
  (0 < n)%nat → String.length b = n → slice_to (- Z.of_nat n) (a +:+ b) = a.
Proof.
  intros Hn Hb. rewrite slice_to_neg by done.
  rewrite string_length_app, Hb.
  replace (String.length a + n - n) with (String.length a) by lia.
  apply substring_prefix.
Qed.

End Strings.

(** ** Filename parsing *)

Example number_07 : number "07_my-talk.mp3" = inr "07".
Proof. reflexivity. Qed.

Example title_07 : title "07_my-talk.mp3" = inr "my-talk".
Proof. reflexivity. Qed.

Example title_no_delimiter : title "talk.mp3" = inl IndexError.
Proof. reflexivity. Qed.

(** 2.5 is the binary64 value with mantissa 5 * 2^50 and exponent -51. *)
Example f2_5_binary64 :
  bounded 53 1024 5629499534213120 (-51) = true ∧
  (5629499534213120 = 5 * 2 ^ 50)%Z.
Proof. split; reflexivity. Qed.

Lemma number_first_token audio tok toks :
  str_split "_" audio = tok :: toks → number audio = inr tok.
Proof. unfold number. by intros ->. Qed.

Lemma title_second_token audio tok0 tok1 toks :
  str_split "_" audio = tok0 :: tok1 :: toks →
  title audio = inr (slice_to (-4) tok1).
Proof. unfold title. by intros ->. Qed.

Lemma title_no_second_token audio :
  str_count "_" audio = 0 → title audio = inl IndexError.
Proof. intros H. unfold title. by rewrite (str_split_no_sep _ _ H). Qed.

(** C1 (amended): for a filename [idx_rest], where [idx] holds no
    underscore, splitting on the underscore gives [idx] as first token,
    [number] is that token and [title] is the second token with its last
    FOUR characters removed.  When [rest] holds no further underscore
    the second token is [rest], so the title is the substring between
    the first underscore and the final four characters, and for
    [rest = title.ext] with an extension of three characters it is
    [title]. *)
Theorem parse_filename (idx rest : string) :
  str_count "_" idx = 0 →
  ∃ tok1 toks,
    str_split "_" (idx +:+ "_" +:+ rest) = idx :: tok1 :: toks ∧
    number (idx +:+ "_" +:+ rest) = inr idx ∧
    title (idx +:+ "_" +:+ rest) = inr (slice_to (-4) tok1) ∧
    (str_count "_" rest = 0 →
       tok1 = rest ∧ toks = [] ∧
       slice_to (-4) tok1 =
         substring (S (String.length idx)) (String.length rest - 4)
           (idx +:+ "_" +:+ rest) ∧
       ∀ ttl ext, rest = ttl +:+ "." +:+ ext → String.length ext = 3 →
                  title (idx +:+ "_" +:+ rest) = inr ttl).
Proof.
  intros Hidx.
  assert (Hsplit : str_split "_" (idx +:+ "_" +:+ rest) = idx :: str_split "_" rest)
    by (apply (str_split_first "_" idx rest Hidx)).
  destruct (str_split "_" rest) as [|tok1 toks] eqn:Hrest;
    [by destruct (str_split_not_nil "_" rest)|].
  exists tok1, toks. split; [done|].
  split; [by eapply number_first_token|].
  split; [by eapply title_second_token|].
  intros Hnone. rewrite (str_split_no_sep _ _ Hnone) in Hrest.
  injection Hrest as <- <-. split; [done|]. split; [done|]. split.
  - rewrite (slice_to_neg 4) by lia.
    replace (S (String.length idx)) with (String.length (idx +:+ "_") + 0).
    + replace (idx +:+ "_" +:+ rest) with ((idx +:+ "_") +:+ rest).
      * by rewrite substring_skip.
      * apply string_app_assoc.
    + rewrite string_length_app. simpl. lia.
  - intros ttl ext -> Hext.
    rewrite (title_second_token _ _ _ _ Hsplit). f_equal.
    apply (slice_to_suffix 4); [lia|]. by rewrite string_length_app, Hext.
Qed.

Lemma parse_filename_witness :
  str_count "_" "07" = 0 ∧
  ∃ tok1 toks,
    str_split "_" ("07" +:+ "_" +:+ "my-talk.mp3") = "07" :: tok1 :: toks ∧
    number ("07" +:+ "_" +:+ "my-talk.mp3") = inr "07" ∧
    title ("07" +:+ "_" +:+ "my-talk.mp3") = inr (slice_to (-4) tok1) ∧
    (str_count "_" "my-talk.mp3" = 0 →
       tok1 = "my-talk.mp3" ∧ toks = [] ∧
       slice_to (-4) tok1 =
         substring (S (String.length "07")) (String.length "my-talk.mp3" - 4)
           ("07" +:+ "_" +:+ "my-talk.mp3") ∧
       ∀ ttl ext, "my-talk.mp3" = ttl +:+ "." +:+ ext → String.length ext = 3 →
                  title ("07" +:+ "_" +:+ "my-talk.mp3") = inr ttl).
Proof. split; [reflexivity | apply (parse_filename "07" "my-talk.mp3"); reflexivity]. Defined.

(** C1 as stated fails: removing the last THREE characters of the second
    token of ["07_my-talk.mp3"] leaves ["my-talk."], and the title the
    script computes is ["my-talk"]. *)
Lemma title_three_characters_counterexample :
  str_split "_" "07_my-talk.mp3" = ["07"; "my-talk.mp3"] ∧
  slice_to (-3) "my-talk.mp3" = "my-talk." ∧
  title "07_my-talk.mp3" = inr "my-talk" ∧
  title "07_my-talk.mp3" ≠ inr (slice_to (-3) "my-talk.mp3").
Proof. repeat split; try reflexivity. discriminate. Qed.

(** ** Output construction *)

Lemma chunks_loop number title (segs : list Segment) (acc : list ChunkRecord) :
  fold_left (fun chunks segment => chunks ++ [chunk_of number title segment]) segs acc
  = acc ++ map (chunk_of number title) segs.
Proof.
  revert acc. induction segs as [|seg segs IH]; intros acc; simpl.
  - by rewrite app_nil_r.
  - rewrite IH. by rewrite <- app_assoc.
Qed.

Lemma chunks_map number title result :
  chunks number title result = map (chunk_of number title) (segments result).
Proof. unfold chunks. apply (chunks_loop number title (segments result) []). Qed.

Lemma document_parsed audio n t result :
  number audio = inr n → title audio = inr t →
  document audio result = inr (chunks_with_metadata n t result).
Proof. unfold document. by intros -> ->. Qed.

(** C2: when the filename parses to [n] and [t], the document built for
    a result with N segments holds exactly N chunk records; the record
    at position [i] carries [n], [t] and the start, end and text of the
    segment at position [i]; and the document carries the full text of
    the result. *)
Theorem document_chunks audio n t result :
  number audio = inr n → title audio = inr t →
  ∃ d, document audio result = inr d ∧
       length (doc_chunks d) = length (segments result) ∧
       (∀ i : nat,
          doc_chunks d !! i =
          (fun seg => {| chunk_number := n; chunk_title := t;
                         chunk_start := seg_start seg; chunk_end := seg_end seg;
                         chunk_text := seg_text seg |}) <$> (segments result !! i)) ∧
       doc_text d = text result.
Proof.
  intros Hn Ht. eexists. split; [by apply document_parsed|]. simpl.
  rewrite chunks_map. split; [by rewrite length_map|].
  split; [|done]. intros i. apply list_lookup_fmap.
Qed.

Lemma document_chunks_witness :
  ∃ d, document Sample.talk Sample.hello = inr d ∧
       length (doc_chunks d) = length (segments Sample.hello) ∧
       (∀ i : nat,
          doc_chunks d !! i =
          (fun seg => {| chunk_number := "07"; chunk_title := "my-talk";
                         chunk_start := seg_start seg; chunk_end := seg_end seg;
                         chunk_text := seg_text seg |}) <$> (segments Sample.hello !! i)) ∧
       doc_text d = text Sample.hello.
Proof. apply (document_chunks Sample.talk "07" "my-talk" Sample.hello); reflexivity. Defined.

(** C3: for the file ["07_my-talk.mp3"] and the result with the single
    segment (0.0, 2.5, "hello") and the text "hello", the document is
    the one with the single chunk ("07", "my-talk", 0.0, 2.5, "hello")
    and the text "hello". *)
Theorem document_example :
  document "07_my-talk.mp3"
    {| segments := [ {| seg_start := Sample.f0_0; seg_end := Sample.f2_5;
                        seg_text := "hello" |} ];
       text := "hello" |}
  = inr {| doc_chunks := [ {| chunk_number := "07"; chunk_title := "my-talk";
                              chunk_start := Sample.f0_0; chunk_end := Sample.f2_5;
                              chunk_text := "hello" |} ];
           doc_text := "hello" |}.
Proof. reflexivity. Qed.

(** C9: when the second token has four characters or fewer the slice
    does not raise: the title is the empty string, the document is
    built, and every chunk record carries the empty title. *)
Theorem title_short_token audio tok0 tok1 toks :
  str_split "_" audio = tok0 :: tok1 :: toks →
  (String.length tok1 ≤ 4)%nat →
  title audio = inr EmptyString ∧
  ∀ result, ∃ d, document audio result = inr d ∧
                 ∀ c, c ∈ doc_chunks d → chunk_title c = EmptyString.
Proof.
  intros Hsplit Hlen.
  assert (Ht : title audio = inr EmptyString).
  { rewrite (title_second_token _ _ _ _ Hsplit). f_equal.
    by apply (slice_to_short 4); [lia|]. }
  split; [done|]. intros result. eexists.
  split; [by apply (document_parsed _ _ _ _ (number_first_token _ _ _ Hsplit) Ht)|].
  simpl. rewrite chunks_map. intros c Hc.
  apply list_elem_of_fmap in Hc as (seg & -> & _). done.
Qed.

Lemma title_short_token_witness :
  title "1_.mp3" = inr EmptyString ∧
  ∀ result, ∃ d, document "1_.mp3" result = inr d ∧
                 ∀ c, c ∈ doc_chunks d → chunk_title c = EmptyString.
Proof.
  apply (title_short_token "1_.mp3" "1" ".mp3" []); [reflexivity | simpl; lia].
Defined.

(** C10: a filename with two or more underscores has at least three
    tokens; the title is the second token without its last four
    characters, and the document is built from the first two tokens and
    the result alone: any filename with the same first two tokens gives
    the same document, whatever its later tokens are. *)
Theorem title_ignores_later_tokens audio :
  (2 ≤ str_count "_" audio)%nat →
  ∃ tok0 tok1 tok2 toks,
    str_split "_" audio = tok0 :: tok1 :: tok2 :: toks ∧
    title audio = inr (slice_to (-4) tok1) ∧
    ∀ result,
      document audio result
        = inr (chunks_with_metadata tok0 (slice_to (-4) tok1) result) ∧
      ∀ audio' toks', str_split "_" audio' = tok0 :: tok1 :: toks' →
                      document audio' result = document audio result.
Proof.
  intros Hcount. pose proof (str_split_length "_" audio) as Hlen.
  destruct (str_split "_" audio) as [|tok0 [|tok1 [|tok2 toks]]] eqn:Hsplit;
    simpl in Hlen; try lia.
  exists tok0, tok1, tok2, toks. split; [done|].
  pose proof (number_first_token _ _ _ Hsplit) as Hn.
  pose proof (title_second_token _ _ _ _ Hsplit) as Ht.
  split; [done|]. intros result.
  rewrite (document_parsed _ _ _ result Hn Ht). split; [done|].
  intros audio' toks' Hsplit'.
  apply document_parsed;
    [by eapply number_first_token | by eapply title_second_token].
Qed.

Lemma title_ignores_later_tokens_witness :
  (2 ≤ str_count "_" "07_my-talk_part_2.mp3")%nat ∧
  ∃ tok0 tok1 tok2 toks,
    str_split "_" "07_my-talk_part_2.mp3" = tok0 :: tok1 :: tok2 :: toks ∧
    title "07_my-talk_part_2.mp3" = inr (slice_to (-4) tok1) ∧
    ∀ result,
      document "07_my-talk_part_2.mp3" result
        = inr (chunks_with_metadata tok0 (slice_to (-4) tok1) result) ∧
      ∀ audio' toks', str_split "_" audio' = tok0 :: tok1 :: toks' →
                      document audio' result = document "07_my-talk_part_2.mp3" result.
Proof.
  split; [simpl; lia | apply (title_ignores_later_tokens "07_my-talk_part_2.mp3"); simpl; lia].
Defined.

(** ** The statements of the script, one by one *)

Lemma out_path_inj a b : out_path a = out_path b → a = b.
Proof.
  unfold out_path. intros H.
  apply string_app_inj_l in H. by apply string_app_inj_r in H.
Qed.

(** One iteration, statement by statement. *)
Lemma process_audio_eq env audio w :
  process_audio env audio w =
  match number audio with
  | inl e => (inl e, w)
  | inr n =>
      match title audio with
      | inl e => (inl e, w)
      | inr t =>
          let w1 := {| fs := fs w; stdout := stdout w ++ [n +:+ " " +:+ t] |} in
          match transcribe env (in_path audio) "hi" "translate" false with
          | inl msg => (inl (ModelError msg), w1)
          | inr result =>
              dump_to env (out_path audio) (chunks_with_metadata n t result) w1
          end
      end
  end.
Proof.
  unfold process_audio, bind, eval, print, model_transcribe.
  destruct (number audio) as [e|n]; [done|].
  destruct (title audio) as [e|t]; [done|]. simpl.
  by destruct (transcribe env (in_path audio) "hi" "translate" false).
Qed.

(** An iteration that finishes has written the document of its file. *)
Lemma process_audio_finished env audio w w' :
  process_audio env audio w = (inr tt, w') →
  ∃ result d,
    transcribe env (in_path audio) "hi" "translate" false = inr result ∧
    document audio result = inr d ∧
    open_w env (out_path audio) = true ∧
    dump_fault env (out_path audio) = None ∧
    fs w' = <[out_path audio := Json.dumps (float_repr env) d]> (fs w).
Proof.
  rewrite process_audio_eq. unfold document, dump_to.
  destruct (number audio) as [e|n]; [done|].
  destruct (title audio) as [e|t]; [done|]. simpl.
  destruct (transcribe env (in_path audio) "hi" "translate" false)
    as [msg|result]; [done|].
  destruct (open_w env (out_path audio)); [|done].
  destruct (dump_fault env (out_path audio)); [done|].
  intros [= <-]. by exists result, (chunks_with_metadata n t result).
Qed.


(** An iteration that raises leaves the files as they were, unless the
    exception comes from the write to the opened file. *)
Lemma process_audio_raises env audio w e w' :
  process_audio env audio w = (inl e, w') →
  (e ≠ WriteError ∧ fs w' = fs w) ∨
  (e = WriteError ∧
   ∃ result d n,
     transcribe env (in_path audio) "hi" "translate" false = inr result ∧
     document audio result = inr d ∧
     dump_fault env (out_path audio) = Some n ∧
     fs w' = <[out_path audio := substring 0 n (Json.dumps (float_repr env) d)]> (fs w)).
Proof.
  rewrite process_audio_eq. unfold document, dump_to, number, title, getitem.
  destruct (str_split "_" audio !! 0) as [n|]; [|intros [= <- <-]; by left].
  destruct (str_split "_" audio !! 1) as [tok|]; [|intros [= <- <-]; by left].
  simpl.
  destruct (transcribe env (in_path audio) "hi" "translate" false)
    as [msg|result]; [intros [= <- <-]; by left|].
  destruct (open_w env (out_path audio)); [|intros [= <- <-]; by left].
  destruct (dump_fault env (out_path audio)) as [k|]; [|done].
  intros [= <- <-]. right. split; [done|].
  by exists result, (chunks_with_metadata n (slice_to (-4) tok) result), k.
Qed.

(** ** The loop *)

Lemma batch_cons env audio audios w :
  batch env (audio :: audios) w =
  match process_audio env audio w with
  | (inl e, w') => (inl e, w')
  | (inr _, w') => batch env audios w'
  end.
Proof. reflexivity. Qed.

(** The loop stops at the first iteration that raises. *)
Lemma batch_stops env pre audio post w0 w e w' :
  batch env pre w0 = (inr tt, w) →
  process_audio env audio w = (inl e, w') →
  batch env (pre ++ audio :: post) w0 = (inl e, w').
Proof.
  revert w0. induction pre as [|b pre IH]; intros w0; simpl app.
  - intros [= ->] Hraise. by rewrite batch_cons, Hraise.
  - rewrite !batch_cons.
    destruct (process_audio env b w0) as [[e0|[]] wb]; [done|]. apply IH.
Qed.

(** What a loop that finished has left on disk. *)
Lemma batch_finished env audios w w1 :
  batch env audios w = (inr tt, w1) →
  (∀ a, a ∈ audios →
     ∃ result d,
       transcribe env (in_path a) "hi" "translate" false = inr result ∧
       document a result = inr d ∧
       fs w1 !! out_path a = Some (Json.dumps (float_repr env) d)) ∧
  (∀ p, p ∉ out_path <$> audios → fs w1 !! p = fs w !! p) ∧
  dom (fs w1) = dom (fs w) ∪ list_to_set (out_path <$> audios).
Proof.
  revert w. induction audios as [|b audios IH]; intros w.
  - intros [= ->]. split; [by intros a Ha%elem_of_nil|]. split; [done|].
    simpl. by rewrite (right_id_L ∅ (∪)).
  - rewrite batch_cons.
    destruct (process_audio env b w) as [[e0|[]] wb] eqn:Hb; [done|].
    intros Hrest. destruct (IH _ Hrest) as (Hin & Hout & Hdom).
    destruct (process_audio_finished _ _ _ _ Hb)
      as (result & d & Hres & Hdoc & _ & _ & Hfs).
    split; [|split].
    + intros a Ha. destruct (decide (a ∈ audios)) as [Hl|Hnl]; [by apply Hin|].
      apply elem_of_cons in Ha as [->|Ha]; [|done].
      exists result, d. split; [done|]. split; [done|].
      rewrite Hout, Hfs; [apply lookup_insert_eq|].
      intros (a' & Heq & Ha')%list_elem_of_fmap.
      apply out_path_inj in Heq as ->. done.
    + intros p Hp. rewrite fmap_cons in Hp. apply not_elem_of_cons in Hp as [Hne Hp].
      rewrite (Hout p Hp), Hfs. by apply lookup_insert_ne.
    + rewrite Hdom, Hfs, dom_insert_L, fmap_cons. simpl.
      by rewrite (comm_L (∪) {[out_path b]} (dom (fs w))), (assoc_L (∪)).
Qed.

(** C4: a filename without underscore makes its iteration raise
    IndexError at the parsing, before anything is printed or written;
    the exception leaves the loop there, whatever files come after it in
    the listing, and the whole script ends with it. *)
Theorem missing_delimiter_aborts env pre audio post w0 w :
  str_count "_" audio = 0 →
  listdir env "tedx_audios" = Some (pre ++ audio :: post) →
  batch env pre w0 = (inr tt, w) →
  process_audio env audio w = (inl IndexError, w) ∧
  batch env (pre ++ audio :: post) w0 = (inl IndexError, w) ∧
  main env w0 = (inl IndexError, w).
Proof.
  intros Hcount Hdir Hpre.
  assert (Hraise : process_audio env audio w = (inl IndexError, w)).
  { rewrite process_audio_eq. unfold number.
    rewrite (title_no_second_token _ Hcount), (str_split_no_sep _ _ Hcount). done. }
  split; [done|].
  assert (Hbatch : batch env (pre ++ audio :: post) w0 = (inl IndexError, w))
    by (by eapply batch_stops).
  split; [done|].
  unfold main, bind, eval, os_listdir. by rewrite Hdir.
Qed.

Lemma missing_delimiter_aborts_witness :
  process_audio (Sample.env [Sample.talk; "talk.mp3"; "08_other.mp3"]) "talk.mp3"
      {| fs := {[ out_path Sample.talk :=
                    Json.dumps Sample.repr
                      (chunks_with_metadata "07" "my-talk" Sample.hello) ]};
         stdout := ["07 my-talk"] |}
    = (inl IndexError,
       {| fs := {[ out_path Sample.talk :=
                     Json.dumps Sample.repr
                       (chunks_with_metadata "07" "my-talk" Sample.hello) ]};
          stdout := ["07 my-talk"] |}) ∧
  batch (Sample.env [Sample.talk; "talk.mp3"; "08_other.mp3"])
      ([Sample.talk] ++ "talk.mp3" :: ["08_other.mp3"]) no_files
    = (inl IndexError,
       {| fs := {[ out_path Sample.talk :=
                     Json.dumps Sample.repr
                       (chunks_with_metadata "07" "my-talk" Sample.hello) ]};
          stdout := ["07 my-talk"] |}) ∧
  main (Sample.env [Sample.talk; "talk.mp3"; "08_other.mp3"]) no_files
    = (inl IndexError,
       {| fs := {[ out_path Sample.talk :=
                     Json.dumps Sample.repr
                       (chunks_with_metadata "07" "my-talk" Sample.hello) ]};
          stdout := ["07 my-talk"] |}).
Proof.
  apply (missing_delimiter_aborts
           (Sample.env [Sample.talk; "talk.mp3"; "08_other.mp3"])
           [Sample.talk] "talk.mp3" ["08_other.mp3"] no_files);
    reflexivity.
Defined.



(** C8: when the listing of the input directory is empty the script
    finishes without an exception and leaves the disk, and the standard
    output, as they were. *)
Theorem empty_directory env w :
  listdir env "tedx_audios" = Some [] → main env w = (inr tt, w).
Proof. intros Hdir. unfold main, bind, eval, os_listdir. by rewrite Hdir. Qed.

(** C7 (amended): when the iterations before item [audio] finish and
    the iteration of [audio] raises [e], the loop ends with [e] in the
    world that iteration left.  The output file of every earlier item
    holds its document; the output file of every later item is as it was
    before the run; every file that is not an output file of the items
    up to [audio] is untouched.  The output file of [audio] itself is as
    it was before the run unless [e] was raised by the write to the
    opened file; in that case it holds the part of the JSON text that
    was written. *)
Theorem failure_stops_batch env pre audio post w0 w e w' :
  NoDup (pre ++ audio :: post) →
  batch env pre w0 = (inr tt, w) →
  process_audio env audio w = (inl e, w') →
  batch env (pre ++ audio :: post) w0 = (inl e, w') ∧
  (∀ b, b ∈ pre →
     ∃ result d,
       transcribe env (in_path b) "hi" "translate" false = inr result ∧
       document b result = inr d ∧
       fs w' !! out_path b = Some (Json.dumps (float_repr env) d)) ∧
  (∀ b, b ∈ post → fs w' !! out_path b = fs w0 !! out_path b) ∧
  (∀ p, p ∉ out_path <$> (pre ++ [audio]) → fs w' !! p = fs w0 !! p) ∧
  (e ≠ WriteError → fs w' !! out_path audio = fs w0 !! out_path audio) ∧
  (e = WriteError →
     ∃ result d n,
       transcribe env (in_path audio) "hi" "translate" false = inr result ∧
       document audio result = inr d ∧
       dump_fault env (out_path audio) = Some n ∧
       fs w' !! out_path audio
         = Some (substring 0 n (Json.dumps (float_repr env) d))).
Proof.
  intros Hnd Hpre Hraise.
  destruct (batch_finished _ _ _ _ Hpre) as (Hin & Hout & _).
  apply NoDup_app in Hnd as (_ & Hdisj & Hnd').
  apply NoDup_cons in Hnd' as [Hpost _].
  assert (Hfresh : out_path audio ∉ out_path <$> pre).
  { intros (b & Heq & Hb)%list_elem_of_fmap. apply out_path_inj in Heq as ->.
    apply (Hdisj b Hb). by left. }
  assert (Hother : ∀ p, p ≠ out_path audio → fs w' !! p = fs w !! p).
  { intros p Hp.
    destruct (process_audio_raises _ _ _ _ _ Hraise)
      as [[_ ->]|(_ & result & d & n & _ & _ & _ & ->)]; [done|].
    by apply lookup_insert_ne. }
  split; [by eapply batch_stops|]. split; [|split; [|split; [|split]]].
  - intros b Hb. destruct (Hin b Hb) as (result & d & Hres & Hdoc & Hfile).
    exists result, d. split; [done|]. split; [done|]. rewrite Hother; [done|].
    intros Heq%out_path_inj. subst b. apply (Hdisj audio Hb). by left.
  - intros b Hb. rewrite Hother, Hout; [done| |].
    + intros (c & Heq & Hc)%list_elem_of_fmap. apply out_path_inj in Heq as ->.
      apply (Hdisj c Hc). by right.
    + intros Heq%out_path_inj. by subst b.
  - intros p Hp. rewrite fmap_app in Hp. apply not_elem_of_app in Hp as [Hp1 Hp2].
    rewrite Hother, Hout; [done|done|]. intros ->. apply Hp2. by left.
  - intros He. rewrite <- (Hout _ Hfresh).
    destruct (process_audio_raises _ _ _ _ _ Hraise)
      as [[_ ->]|(Heq & _)]; [done|by destruct He].
  - intros He.
    destruct (process_audio_raises _ _ _ _ _ Hraise)
      as [[Hne _]|(_ & result & d & n & Hres & Hdoc & Hdump & ->)]; [done|].
    exists result, d, n. by rewrite lookup_insert_eq.
Qed.


Lemma empty_directory_witness :
  listdir (Sample.env []) "tedx_audios" = Some [] ∧
  main (Sample.env []) no_files = (inr tt, no_files).
Proof. split; [reflexivity | apply (empty_directory (Sample.env [])); reflexivity]. Defined.

Lemma failure_stops_batch_witness :
  batch (Sample.env_disk_full [Sample.talk; "08_other.mp3"; "09_last.mp3"] "08_other.mp3")
    ([Sample.talk] ++ "08_other.mp3" :: ["09_last.mp3"]) no_files
  = (inl WriteError,
     {| fs := <[ out_path "08_other.mp3" := EmptyString ]>
                {[ out_path Sample.talk :=
                     Json.dumps Sample.repr
                       (chunks_with_metadata "07" "my-talk" Sample.hello) ]};
        stdout := ["07 my-talk"; "08 other"] |}).
Proof.
  apply (failure_stops_batch
           (Sample.env_disk_full [Sample.talk; "08_other.mp3"; "09_last.mp3"] "08_other.mp3")
           [Sample.talk] "08_other.mp3" ["09_last.mp3"] no_files
           {| fs := {[ out_path Sample.talk :=
                         Json.dumps Sample.repr
                           (chunks_with_metadata "07" "my-talk" Sample.hello) ]};
              stdout := ["07 my-talk"] |}).
  - apply (bool_decide_unpack _). vm_compute. reflexivity.
  - reflexivity.
  - reflexivity.
Defined.

(** C7 as stated fails when the exception is raised by the write: the
    output file of the failing item did not exist before the run and
    exists, empty, after it. *)
Lemma failed_write_leaves_file_counterexample :
  ∃ w',
    batch (Sample.env_disk_full [Sample.talk] Sample.talk) [Sample.talk] no_files
      = (inl WriteError, w') ∧
    fs no_files !! out_path Sample.talk = None ∧
    fs w' !! out_path Sample.talk = Some EmptyString ∧
    fs w' !! out_path Sample.talk ≠ fs no_files !! out_path Sample.talk.
Proof.
  eexists. split; [reflexivity|]. split; [reflexivity|].
  split; [reflexivity|]. discriminate.
Qed.

(** ** Running the script again *)

Lemma local_ret {A} (x : A) : local (ret x).
Proof.
  intros [m out]. unfold ret. simpl.
  by rewrite (left_id_L ∅ (∪)), app_nil_r.
Qed.

Lemma local_eval {A} (r : exn + A) : local (eval r).
Proof.
  intros [m out]. unfold eval. simpl.
  by rewrite (left_id_L ∅ (∪)), app_nil_r.
Qed.

Lemma local_print a b : local (print a b).
Proof. intros [m out]. unfold print. simpl. by rewrite (left_id_L ∅ (∪)). Qed.

Lemma local_dump_to env path d : local (dump_to env path d).
Proof.
  intros [m out]. unfold dump_to. simpl.
  destruct (open_w env path); simpl.
  - destruct (dump_fault env path); simpl;
      by rewrite app_nil_r, insert_empty, insert_union_singleton_l.
  - by rewrite (left_id_L ∅ (∪)), app_nil_r.
Qed.

Lemma local_bind {A B} (c : M A) (k : A → M B) :
  local c → (∀ x, local (k x)) → local (bind c k).
Proof.
  intros Hc Hk w. unfold bind. rewrite (Hc w).
  destruct (c no_files) as [[e|x] w1]; simpl; [done|].
  rewrite (Hk x w1), (Hk x {| fs := fs w1 ∪ fs w; stdout := stdout w ++ stdout w1 |}).
  simpl. by rewrite (assoc_L (∪)), app_assoc.
Qed.

Lemma local_for_each {A} (body : A → M unit) l :
  (∀ x, local (body x)) → local (for_each body l).
Proof.
  intros Hbody. induction l as [|x l IH]; simpl; [apply local_ret|].
  by apply local_bind.
Qed.

Lemma local_process_audio env audio : local (process_audio env audio).
Proof.
  unfold process_audio.
  repeat (apply local_bind; [|intros ?]);
    auto using local_eval, local_print, local_dump_to.
Qed.

Lemma local_main env : local (main env).
Proof.
  unfold main, batch. apply local_bind; [apply local_eval|].
  intros audios. apply local_for_each, local_process_audio.
Qed.

(** A local statement run a second time has the same outcome and
    leaves the files of the first run as they are. *)
Lemma local_rerun {A} (c : M A) w r w1 :
  local c → c w = (r, w1) → ∃ w2, c w1 = (r, w2) ∧ fs w2 = fs w1.
Proof.
  intros Hc Hrun. rewrite (Hc w) in Hrun. injection Hrun as <- <-.
  eexists. split; [apply (Hc _)|]. simpl.
  by rewrite (assoc_L (∪)), (idemp_L (∪)).
Qed.

(** The run depends on the model through its answers for the listed
    files only. *)
Lemma batch_same_answers env model2 audios w :
  (∀ a, a ∈ audios →
     model2 (in_path a) "hi" "translate" false
     = transcribe env (in_path a) "hi" "translate" false) →
  batch (with_model env model2) audios w = batch env audios w.
Proof.
  revert w. induction audios as [|b audios IH]; intros w Hsame; [done|].
  rewrite !batch_cons.
  assert (Hb : process_audio (with_model env model2) b w = process_audio env b w).
  { rewrite !process_audio_eq. simpl. rewrite (Hsame b); [done|by left]. }
  rewrite Hb. destruct (process_audio env b w) as [[e|[]] wb]; [done|].
  apply IH. intros a Ha. apply Hsame. by right.
Qed.

(** C6: run the script, then run it again on the same listing, with a
    model that answers for every listed file as in the first run and a
    disk that behaves as in the first run.  The second run ends as the
    first did and the disk after it is the disk after the first run;
    when the runs finish, the output file of every listed file holds,
    after either run, the same JSON text, the one of its document. *)
Theorem rerun_same_files env model2 audios w r w1 :
  listdir env "tedx_audios" = Some audios →
  (∀ a, a ∈ audios →
     model2 (in_path a) "hi" "translate" false
     = transcribe env (in_path a) "hi" "translate" false) →
  main env w = (r, w1) →
  ∃ w2,
    main (with_model env model2) w1 = (r, w2) ∧
    fs w2 = fs w1 ∧
    (r = inr tt →
     ∀ a, a ∈ audios →
       ∃ result d,
         model2 (in_path a) "hi" "translate" false = inr result ∧
         document a result = inr d ∧
         fs w1 !! out_path a = Some (Json.dumps (float_repr env) d) ∧
         fs w2 !! out_path a = Some (Json.dumps (float_repr env) d)).
Proof.
  intros Hdir Hsame Hrun.
  destruct (local_rerun _ _ _ _ (local_main env) Hrun) as (w2 & Hrun2 & Hfs).
  assert (Hmain : ∀ e v, main e v =
            match listdir e "tedx_audios" with
            | Some l => batch e l v
            | None => (inl ListdirError, v)
            end).
  { intros e v. unfold main, bind, eval, os_listdir.
    by destruct (listdir e "tedx_audios"). }
  exists w2. split; [|split; [done|]].
  - rewrite Hmain. simpl. rewrite Hdir, batch_same_answers by done.
    rewrite <- Hrun2, Hmain. by rewrite Hdir.
  - intros -> a Ha. rewrite Hmain, Hdir in Hrun.
    destruct (batch_finished _ _ _ _ Hrun) as (Hin & _ & _).
    destruct (Hin a Ha) as (result & d & Hres & Hdoc & Hfile).
    exists result, d. rewrite (Hsame a Ha), Hfs. done.
Qed.

Lemma rerun_same_files_witness :
  ∃ w2,
    main (with_model (Sample.env [Sample.talk]) (fun _ _ _ _ => inr Sample.hello))
         (main (Sample.env [Sample.talk]) no_files).2
      = (@inr exn unit tt, w2) ∧
    fs w2 = fs (main (Sample.env [Sample.talk]) no_files).2 ∧
    (@inr exn unit tt = inr tt →
     ∀ a, a ∈ [Sample.talk] →
       ∃ result d,
         @inr string TranscriptionResult Sample.hello = inr result ∧
         document a result = inr d ∧
         fs (main (Sample.env [Sample.talk]) no_files).2 !! out_path a
           = Some (Json.dumps Sample.repr d) ∧
         fs w2 !! out_path a = Some (Json.dumps Sample.repr d)).
Proof.
  apply (rerun_same_files (Sample.env [Sample.talk])
           (fun _ _ _ _ => inr Sample.hello) [Sample.talk] no_files (inr tt)).
  - reflexivity.
  - intros a Ha. apply elem_of_cons in Ha as [->|Ha]; [reflexivity|].
    by apply elem_of_nil in Ha.
  - reflexivity.
Defined.

(** ** More on splitting and slicing *)

Section Tokens.

Implicit Types (c : ascii) (s a b : string).

Local Arguments String.append _ _ : simpl nomatch.


(** The first token holds no separator, and the string is that token,
    followed, when there are more tokens, by a separator and the string
    the other tokens are split from. *)
Lemma str_split_head c s :
  ∃ tok toks,
    str_split c s = tok :: toks ∧ str_count c tok = 0 ∧
    ((toks = [] ∧ s = tok) ∨
     (∃ rest, s = tok +:+ String c rest ∧ str_split c rest = toks)).
Proof.
  induction s as [|c' s (tok & toks & Hsplit & Hcount & Hshape)]; simpl.
  - exists EmptyString, []. split; [done|]. split; [done|]. by left.
  - destruct (Ascii.eqb c' c) eqn:Hc.
    + apply Ascii.eqb_eq in Hc as ->.
      exists EmptyString, (tok :: toks). split; [by rewrite Hsplit|].
      split; [done|]. right. by exists s.
    + rewrite Hsplit. exists (String c' tok), toks. split; [done|].
      split; [simpl; by rewrite Hc|].
      destruct Hshape as [[-> ->]|(rest & -> & Hrest)]; [by left|].
      right. by exists rest.
Qed.


Lemma substring_length s n :
  String.length (substring 0 n s) = Nat.min n (String.length s).
Proof.
  revert n. induction s as [|c' s IH]; intros [|n]; simpl; try done.
  by rewrite IH.
Qed.


End Tokens.

(** ** Filename parsing, in general *)


(** X1: [number] never raises, whatever the filename (the empty name
    included): it is the text before the first underscore, the whole
    name when there is none, and holds no underscore itself. *)
Theorem number_before_first_underscore audio :
  ∃ n, number audio = inr n ∧ str_count "_" n = 0 ∧
       (audio = n ∨ ∃ rest, audio = n +:+ "_" +:+ rest).
Proof.
  destruct (str_split_head "_" audio) as (tok & toks & Hsplit & Hcount & Hshape).
  exists tok. split; [by eapply number_first_token|]. split; [done|].
  destruct Hshape as [[_ ->]|(rest & -> & _)]; [by left|].
  right. by exists rest.
Qed.




(** X4: for a filename [idx_title.ext] without further underscore and
    with a title that is not empty, the title the script computes is
    [title] exactly when the extension has three characters: the slice
    drops four characters, whatever the extension is. *)
Theorem title_exact_iff_three_letter_extension idx ttl ext :
  str_count "_" idx = 0 →
  str_count "_" (ttl +:+ "." +:+ ext) = 0 →
  ttl ≠ EmptyString →
  title (idx +:+ "_" +:+ ttl +:+ "." +:+ ext) = inr ttl ↔ String.length ext = 3.
Proof.
  intros Hidx Hrest Hne.
  assert (Htitle : title (idx +:+ "_" +:+ ttl +:+ "." +:+ ext)
                   = inr (slice_to (-4) (ttl +:+ "." +:+ ext))).
  { eapply title_second_token.
    change ("_" +:+ ?x) with (String "_" x).
    rewrite (str_split_first "_" idx _ Hidx), (str_split_no_sep _ _ Hrest). done. }
  rewrite Htitle. split.
  - intros [= Heq]. apply (f_equal String.length) in Heq.
    rewrite (slice_to_neg 4), substring_length, !string_length_app in Heq by lia.
    destruct ttl; [done|]. simpl in Heq. lia.
  - intros Hext. f_equal. apply (slice_to_suffix 4); [lia|].
    by rewrite string_length_app, Hext.
Qed.

Lemma title_exact_iff_three_letter_extension_witness :
  (title ("07" +:+ "_" +:+ "my-talk" +:+ "." +:+ "mp3") = inr "my-talk"
   ↔ String.length "mp3" = 3) ∧
  (title ("07" +:+ "_" +:+ "my-talk" +:+ "." +:+ "flac") = inr "my-talk"
   ↔ String.length "flac" = 3) ∧
  title "07_my-talk.flac" = inr "my-talk.".
Proof.
  split; [|split; [|reflexivity]].
  - apply (title_exact_iff_three_letter_extension "07" "my-talk" "mp3");
      [reflexivity | reflexivity | discriminate].
  - apply (title_exact_iff_three_letter_extension "07" "my-talk" "flac");
      [reflexivity | reflexivity | discriminate].
Defined.

(** ** What a run prints *)

Lemma main_eq env w :
  main env w =
  match listdir env "tedx_audios" with
  | Some audios => batch env audios w
  | None => (inl ListdirError, w)
  end.
Proof.
  unfold main, bind, eval, os_listdir. by destruct (listdir env "tedx_audios").
Qed.

Lemma process_audio_finished_stdout env audio w w' :
  process_audio env audio w = (inr tt, w') →
  ∃ l, printed_line audio l ∧ stdout w' = stdout w ++ [l].
Proof.
  rewrite process_audio_eq. unfold dump_to, printed_line.
  destruct (number audio) as [e|n]; [done|].
  destruct (title audio) as [e|t]; [done|]. simpl.
  destruct (transcribe env (in_path audio) "hi" "translate" false); [done|].
  destruct (open_w env (out_path audio)); [|done].
  destruct (dump_fault env (out_path audio)); [done|].
  intros [= <-]. simpl. eexists. split; [|done]. by exists n, t.
Qed.


Lemma batch_finished_stdout env audios w w1 :
  batch env audios w = (inr tt, w1) →
  ∃ lines, Forall2 printed_line audios lines ∧ stdout w1 = stdout w ++ lines.
Proof.
  revert w. induction audios as [|b audios IH]; intros w.
  - intros [= ->]. exists []. split; [constructor|by rewrite app_nil_r].
  - rewrite batch_cons.
    destruct (process_audio env b w) as [[e0|[]] wb] eqn:Hb; [done|].
    intros (lines & Hlines & Hout)%IH.
    destruct (process_audio_finished_stdout _ _ _ _ Hb) as (l & Hl & Hwb).
    exists (l :: lines). split; [by constructor|].
    by rewrite Hout, Hwb, <- app_assoc.
Qed.


(** X5: a run that finishes has printed exactly one line per listed
    file, in the order of the listing, after what was on the standard
    output before: the number and the title of the file, separated by a
    space. *)
Theorem finished_run_prints_each_file env audios w w1 :
  listdir env "tedx_audios" = Some audios →
  main env w = (inr tt, w1) →
  ∃ lines,
    stdout w1 = stdout w ++ lines ∧
    length lines = length audios ∧
    ∀ i a, audios !! i = Some a →
      ∃ n t, number a = inr n ∧ title a = inr t ∧
             lines !! i = Some (n +:+ " " +:+ t).
Proof.
  intros Hdir. rewrite main_eq, Hdir.
  intros (lines & Hlines & Hout)%batch_finished_stdout.
  exists lines. split; [done|]. split; [symmetry; by eapply Forall2_length|].
  intros i a Ha.
  destruct (Forall2_lookup_l _ _ _ _ _ Hlines Ha) as (l & Hl & n & t & Hn & Ht & ->).
  by exists n, t.
Qed.

Lemma finished_run_prints_each_file_witness :
  ∃ lines,
    stdout (main (Sample.env [Sample.talk; "08_other-talk.mp3"]) no_files).2
      = stdout no_files ++ lines ∧
    length lines = length [Sample.talk; "08_other-talk.mp3"] ∧
    ∀ i a, [Sample.talk; "08_other-talk.mp3"] !! i = Some a →
      ∃ n t, number a = inr n ∧ title a = inr t ∧
             lines !! i = Some (n +:+ " " +:+ t).
Proof.
  apply (finished_run_prints_each_file
           (Sample.env [Sample.talk; "08_other-talk.mp3"])
           [Sample.talk; "08_other-talk.mp3"] no_files);
    reflexivity.
Defined.



(** ** What a run does to the disk, however it ends *)

Lemma process_audio_fs env audio w r w' :
  process_audio env audio w = (r, w') →
  fs w' = fs w ∨ ∃ s, fs w' = <[out_path audio := s]> (fs w).
Proof.
  destruct r as [e|[]]; intros Hrun.
  - destruct (process_audio_raises _ _ _ _ _ Hrun)
      as [[_ ->]|(_ & result & d & n & _ & _ & _ & ->)]; [by left|].
    right. by eexists.
  - destruct (process_audio_finished _ _ _ _ Hrun)
      as (result & d & _ & _ & _ & _ & ->).
    right. by eexists.
Qed.

Lemma batch_fs env audios w r w1 :
  batch env audios w = (r, w1) →
  (∀ p, p ∉ out_path <$> audios → fs w1 !! p = fs w !! p) ∧
  dom (fs w) ⊆ dom (fs w1).
Proof.
  revert w. induction audios as [|b audios IH]; intros w.
  - by intros [= _ ->].
  - rewrite batch_cons.
    destruct (process_audio env b w) as [r0 wb] eqn:Hb.
    assert (Hstep : (∀ p, p ≠ out_path b → fs wb !! p = fs w !! p) ∧
                    dom (fs w) ⊆ dom (fs wb)).
    { destruct (process_audio_fs _ _ _ _ _ Hb) as [->|[s ->]]; [done|].
      split; [intros p Hp; by apply lookup_insert_ne|].
      rewrite dom_insert_L. apply union_subseteq_r. }
    destruct Hstep as [Hother Hdom]. rewrite fmap_cons.
    destruct r0 as [e0|[]].
    + intros [= _ <-]. split; [|done].
      intros p [Hp _]%not_elem_of_cons. by apply Hother.
    + intros [Hrest Hdom']%IH. split; [|by etrans].
      intros p [Hp Hp']%not_elem_of_cons. rewrite Hrest by done. by apply Hother.
Qed.

Lemma in_path_not_out_path a b : in_path a ≠ out_path b.
Proof. unfold in_path, out_path. intros H. by compute in H. Qed.

(** X7: however the run ends, it deletes no file, and the only files
    whose content it can change are the output files of the listed
    names; in particular no audio file of the input directory is
    written to. *)
Theorem run_touches_only_outputs env audios w r w1 :
  listdir env "tedx_audios" = Some audios →
  main env w = (r, w1) →
  dom (fs w) ⊆ dom (fs w1) ∧
  (∀ p, p ∉ out_path <$> audios → fs w1 !! p = fs w !! p) ∧
  (∀ a, fs w1 !! in_path a = fs w !! in_path a).
Proof.
  intros Hdir. rewrite main_eq, Hdir. intros [Hother Hdom]%batch_fs.
  split; [done|]. split; [done|]. intros a. apply Hother.
  intros (b & Heq & _)%list_elem_of_fmap. by apply in_path_not_out_path in Heq.
Qed.

Lemma run_touches_only_outputs_witness :
  dom (fs {| fs := {[ in_path Sample.talk := "RIFF" ]}; stdout := [] |})
    ⊆ dom (fs (main (Sample.env_disk_full [Sample.talk] Sample.talk)
                 {| fs := {[ in_path Sample.talk := "RIFF" ]}; stdout := [] |}).2) ∧
  (∀ p, p ∉ out_path <$> [Sample.talk] →
        fs (main (Sample.env_disk_full [Sample.talk] Sample.talk)
              {| fs := {[ in_path Sample.talk := "RIFF" ]}; stdout := [] |}).2 !! p
        = fs {| fs := {[ in_path Sample.talk := "RIFF" ]}; stdout := [] |} !! p) ∧
  (∀ a, fs (main (Sample.env_disk_full [Sample.talk] Sample.talk)
              {| fs := {[ in_path Sample.talk := "RIFF" ]}; stdout := [] |}).2
          !! in_path a
        = fs {| fs := {[ in_path Sample.talk := "RIFF" ]}; stdout := [] |} !! in_path a).
Proof.
  apply (run_touches_only_outputs
           (Sample.env_disk_full [Sample.talk] Sample.talk) [Sample.talk]
           {| fs := {[ in_path Sample.talk := "RIFF" ]}; stdout := [] |}
           (inl WriteError));
    reflexivity.
Defined.

(** ** The order of the listing *)

Lemma process_audio_outcome env audio w w' :
  (process_audio env audio w).1 = (process_audio env audio w').1.
Proof.
  by rewrite (local_process_audio env audio w), (local_process_audio env audio w').
Qed.

Lemma batch_finished_items env audios w w1 :
  batch env audios w = (inr tt, w1) →
  ∀ a, a ∈ audios → ∀ v, (process_audio env a v).1 = inr tt.
Proof.
  revert w. induction audios as [|b audios IH]; intros w; [by intros _ a Ha%elem_of_nil|].
  rewrite batch_cons.
  destruct (process_audio env b w) as [[e0|[]] wb] eqn:Hb; [done|].
  intros Hrest a [->|Ha]%elem_of_cons v; [|by eapply IH].
  by rewrite (process_audio_outcome env b v w), Hb.
Qed.

Lemma batch_items_finish env audios w :
  (∀ a, a ∈ audios → ∀ v, (process_audio env a v).1 = inr tt) →
  ∃ w1, batch env audios w = (inr tt, w1).
Proof.
  revert w. induction audios as [|b audios IH]; intros w Hall; [by eexists|].
  rewrite batch_cons. pose proof (Hall b (list_elem_of_here _ _) w) as Hb.
  destruct (process_audio env b w) as [[e0|[]] wb]; [done|].
  apply IH. intros a Ha. apply Hall. by right.
Qed.

(** X8: the files a finished run leaves do not depend on the order in
    which the directory is listed: the loop over any permutation of the
    listing finishes too and leaves the same disk. *)
Theorem listing_order_irrelevant env audios audios' w w1 :
  audios ≡ₚ audios' →
  batch env audios w = (inr tt, w1) →
  ∃ w1', batch env audios' w = (inr tt, w1') ∧ fs w1' = fs w1.
Proof.
  intros Hperm Hrun.
  destruct (batch_items_finish env audios' w) as [w1' Hrun'].
  { intros a Ha. apply (batch_finished_items _ _ _ _ Hrun). by rewrite Hperm. }
  exists w1'. split; [done|]. apply map_eq. intros p.
  destruct (batch_finished _ _ _ _ Hrun) as (Hin & Hout & _).
  destruct (batch_finished _ _ _ _ Hrun') as (Hin' & Hout' & _).
  destruct (decide (p ∈ out_path <$> audios)) as [Hp|Hp].
  - apply list_elem_of_fmap in Hp as (a & -> & Ha).
    destruct (Hin a Ha) as (result & d & Hres & Hdoc & ->).
    destruct (Hin' a) as (result' & d' & Hres' & Hdoc' & ->); [by rewrite <- Hperm|].
    congruence.
  - rewrite Hout by done. apply Hout'. by rewrite <- Hperm.
Qed.

Lemma listing_order_irrelevant_witness :
  ∃ w1',
    batch (Sample.env [Sample.talk; "08_other-talk.mp3"])
      ["08_other-talk.mp3"; Sample.talk] no_files = (inr tt, w1') ∧
    fs w1' = fs (batch (Sample.env [Sample.talk; "08_other-talk.mp3"])
                   [Sample.talk; "08_other-talk.mp3"] no_files).2.
Proof.
  apply (listing_order_irrelevant (Sample.env [Sample.talk; "08_other-talk.mp3"])
           [Sample.talk; "08_other-talk.mp3"] ["08_other-talk.mp3"; Sample.talk]
           no_files).
  - apply Permutation_swap.
  - reflexivity.
Defined.

(** ** What the run asks of the model *)

(** X9: the run depends on the model only through its answers to the
    calls the script makes: the path [tedx_audios/<name>] of each listed
    name, with language "hi", task "translate" and word timestamps off.
    Two models that agree on those calls give the same run: the same
    outcome, the same files and the same output. *)
Theorem run_depends_on_listed_answers env model2 audios w :
  listdir env "tedx_audios" = Some audios →
  (∀ a, a ∈ audios →
     model2 ("tedx_audios/" +:+ a) "hi" "translate" false
     = transcribe env ("tedx_audios/" +:+ a) "hi" "translate" false) →
  main (with_model env model2) w = main env w.
Proof.
  intros Hdir Hsame. rewrite !main_eq. simpl. rewrite Hdir.
  by apply batch_same_answers.
Qed.

Lemma run_depends_on_listed_answers_witness :
  main (with_model (Sample.env [Sample.talk])
          (fun path language _ _ =>
             if String.eqb language "hi" then inr Sample.hello else inl "unsupported"))
       no_files
  = main (Sample.env [Sample.talk]) no_files.
Proof.
  apply (run_depends_on_listed_answers (Sample.env [Sample.talk]) _ [Sample.talk]).
  - reflexivity.
  - intros a Ha. apply elem_of_cons in Ha as [->|Ha]; [reflexivity|].
    by apply elem_of_nil in Ha.
Defined.

(** ** The text json.dump writes *)

Section Printable.

Local Arguments String.append _ _ : simpl nomatch.








End Printable.



